(** * news_agent.py: the dedupe, summary and sentiment pipeline

    A shallow embedding of the text pipeline of [src/news_agent.py]
    ([normalize_text], [dedupe], [tokenize], [summarize_text],
    [sentiment_score], [build_summary_sentiment]) and the proofs of its
    specification.

    Python values are modelled as follows:
    - a [str] is the sequence of its Unicode code points, a [list N];
    - an [int] is unbounded, a [Z];
    - a [set] is a [gset]; a [collections.Counter] is a [gmap] that is read
      with default 0;
    - a feed item, a dict with fixed keys, is a record.

    The functions of [re] and [str] that the source calls are written as the
    left-to-right scanners they are.  The specification speaks of maximal
    runs, first occurrences and rankings; these are defined on their own in
    the second part and the program is proved to compute them. *)

From Stdlib Require Import Ascii String.
From stdpp Require Import gmap list sorting lexico.

Open Scope Z_scope.

(** * Part 1: the program *)

(** ** Strings *)

Module Str.

(** A Python [str]: its code points, in order. *)
Abbreviation str := (list N).

(** A literal of the source, given by its ASCII spelling. *)
Definition of_string (s : string) : str :=
  (λ a, N_of_ascii a) <$> list_ascii_of_string s.

Definition between (lo hi c : N) : bool :=
  ((lo <=? c) && (c <=? hi))%N.

(** [str.isspace] on one code point; the same code points form the class
    [\s] of a [str] pattern of [re]. *)
Definition isspace (c : N) : bool :=
  between 0x09 0x0d c || between 0x1c 0x20 c
  || (c =? 0x85)%N || (c =? 0xa0)%N || (c =? 0x1680)%N
  || between 0x2000 0x200a c
  || (c =? 0x2028)%N || (c =? 0x2029)%N || (c =? 0x202f)%N
  || (c =? 0x205f)%N || (c =? 0x3000)%N.

(** The ASCII letters. *)
Definition isalpha_ascii (c : N) : bool :=
  between 0x41 0x5a c || between 0x61 0x7a c.

Definition apostrophe : N := 0x27.
Definition space : N := 0x20.

(** The class [[a-zA-Z']] of the pattern of [tokenize]. *)
Definition is_word_char (c : N) : bool :=
  between 0x61 0x7a c || between 0x41 0x5a c || (c =? apostrophe)%N.

(** The class [[.!?]] of the look-behind in the pattern of
    [summarize_text]. *)
Definition is_terminator (c : N) : bool :=
  (c =? 0x2e)%N || (c =? 0x21)%N || (c =? 0x3f)%N.

(** [str.lower], code point by code point.  ASCII capitals move to their
    small letters.  Outside ASCII exactly two code points have a lowercase
    form that contains an ASCII character: U+0130, which becomes [i]
    followed by U+0307, and U+212A, the Kelvin sign, which becomes [k].
    Every other non-ASCII code point lowers to non-ASCII code points only;
    the one pattern that reads a lowered text, [[a-zA-Z']+], treats them
    all as separators, so they are left as they are. *)
Definition lower_char (c : N) : str :=
  if between 0x41 0x5a c then [(c + 32)%N]
  else if (c =? 0x130)%N then [0x69; 0x307]%N
  else if (c =? 0x212a)%N then [0x6b]%N
  else [c].

Definition lower (s : str) : str := s ≫= lower_char.

(** [str.lstrip], [str.rstrip] and [str.strip] without argument. *)
Fixpoint lstrip (s : str) : str :=
  match s with
  | c :: s' => if isspace c then lstrip s' else s
  | [] => []
  end.

Definition rstrip (s : str) : str := reverse (lstrip (reverse s)).

Definition strip (s : str) : str := rstrip (lstrip s).

(** [sep.join(parts)]. *)
Fixpoint join (sep : str) (parts : list str) : str :=
  match parts with
  | [] => []
  | [p] => p
  | p :: rest => p ++ sep ++ join sep rest
  end.

(** The non-overlapping matches of [[p]+], scanned from the left as [re]
    does: [cur] holds the match in progress, most recent character first. *)
Fixpoint matches (p : N → bool) (cur : str) (s : str) : list str :=
  match s with
  | [] => match cur with [] => [] | _ => [reverse cur] end
  | c :: s' =>
      if p c then matches p (c :: cur) s'
      else match cur with
           | [] => matches p [] s'
           | _ => reverse cur :: matches p [] s'
           end
  end.

(** [re.findall(r"[a-zA-Z']+", s)]. *)
Definition findall_words (s : str) : list str := matches is_word_char [] s.

(** [s.split()]: the pieces of [s] between white space. *)
Definition split (s : str) : list str := matches (λ c, negb (isspace c)) [] s.

(** [re.sub(r"\s+", " ", s)]: [in_match] tells that the scanner is inside a
    run of white space whose replacement has been written already. *)
Fixpoint sub_spaces (in_match : bool) (s : str) : str :=
  match s with
  | [] => []
  | c :: s' =>
      if isspace c then
        if in_match then sub_spaces true s' else space :: sub_spaces true s'
      else c :: sub_spaces false s'
  end.

(** [re.split(r"(?<=[.!?])\s+", s)].  A separator starts at a white-space
    character that directly follows a terminator and extends over the whole
    run of white space.  [after_term] is the look-behind on the previous
    character, [in_sep] tells that a separator is being consumed, and [cur]
    is the piece in progress, most recent character first. *)
Fixpoint split_after_terminator
    (after_term in_sep : bool) (cur : str) (s : str) : list str :=
  match s with
  | [] => [reverse cur]
  | c :: s' =>
      if isspace c then
        if in_sep then split_after_terminator false true cur s'
        else if after_term then
          reverse cur :: split_after_terminator false true [] s'
        else split_after_terminator false false (c :: cur) s'
      else split_after_terminator (is_terminator c) false (c :: cur) s'
  end.

Definition split_sentences (s : str) : list str :=
  split_after_terminator false false [] s.

End Str.

Import Str.

(** ** The pipeline *)

(** The word lists, written as in the source: a literal split at white
    space and collected into a set. *)
Definition STOPWORDS : gset str :=
  list_to_set (split (of_string
    ("a an the and or but if while of to in on for with without by as is are was were be been "
     ++ "this that these those from at it its into over under about after before between not no "
     ++ "you your we our they their i me my us he she him her them his hers ours theirs"))).

Definition POS_WORDS : gset str :=
  list_to_set (split (of_string
    "beat beats growth strong stronger surge surges record optimistic upgrade upgraded buy outperform")).

Definition NEG_WORDS : gset str :=
  list_to_set (split (of_string
    "miss misses decline weak weaker plunge plunges downgrade downgraded sell underperform")).

(** [sum(xs)] over Python integers: from 0, left to right. *)
Definition sum (xs : list Z) : Z := foldl Z.add 0 xs.

(** [normalize_text(text)]; [None] is the absent input, which
    [text or ""] reads as the empty string. *)
Definition normalize_text (text : option str) : str :=
  strip (sub_spaces false (default [] text)).

(** A feed item: the dict built by [extract_items].  [link] is copied from
    the feed entry as it is and may be absent. *)
Record FeedItem := {
  source : str;
  title : str;
  link : option str;
  summary : str;
  published : str
}.

(** [it.get("link") or it.get("title")]: the link unless it is absent or
    empty. *)
Definition item_key (it : FeedItem) : str :=
  match link it with
  | Some (c :: l) => c :: l
  | _ => title it
  end.

(** One turn of the loop of [dedupe] on the state [(seen, out)]. *)
Definition dedupe_step (st : gset str * list FeedItem) (it : FeedItem)
    : gset str * list FeedItem :=
  let key := item_key it in
  if decide (key ∈ st.1) then st
  else ({[ key ]} ∪ st.1, st.2 ++ [it]).

Definition dedupe (items : list FeedItem) : list FeedItem :=
  (foldl dedupe_step (∅, []) items).2.

Definition tokenize (text : str) : list str :=
  let words := findall_words (lower text) in
  filter (λ w, (w ∉ STOPWORDS) ∧ (2 < length w)%nat) words.

(** [Counter(words)], and [freq[w]], which is 0 for a missing key. *)
Definition Counter (words : list str) : gmap str Z :=
  foldl (λ freq w, <[ w := default 0 (freq !! w) + 1 ]> freq) ∅ words.

Definition count_of (freq : gmap str Z) (w : str) : Z := default 0 (freq !! w).

(** [a < b] on the tuples [(score, sentence)]: by the scores and, when they
    are equal, by the sentences, code point by code point. *)
Definition tuple_lt (a b : Z * str) : Prop := lexico a b.

(** [sorted(xs, reverse=True)]: a stable merge sort in which the earlier
    element [x1] is taken first unless [x1 < x2]. *)
Definition sorted_reverse (xs : list (Z * str)) : list (Z * str) :=
  merge_sort (λ a b, ¬ tuple_lt a b) xs.

(** [xs[:k]]: a negative [k] counts from the end. *)
Definition slice_to {A} (k : Z) (xs : list A) : list A :=
  if decide (k < 0) then take (Z.to_nat (Z.of_nat (length xs) + k)) xs
  else take (Z.to_nat k) xs.

Definition summarize_text (text : str) (max_sentences : Z) : str :=
  let sentences := split_sentences text in
  if decide (Z.of_nat (length sentences) ≤ max_sentences) then strip text
  else
    let words := tokenize text in
    let freq := Counter words in
    let scored := (λ s, (sum (count_of freq <$> tokenize s), s)) <$> sentences in
    let top := snd <$> slice_to max_sentences (sorted_reverse scored) in
    join [space] (filter (λ t, t ≠ []) (strip <$> top)).

Record Sentiment := { score : Z; label : str }.

Definition sentiment_score (texts : list str) : Sentiment :=
  let score :=
    foldl (λ score t,
             let words := tokenize t in
             let score := score + sum ((λ _, 1) <$> filter (.∈ POS_WORDS) words) in
             score - sum ((λ _, 1) <$> filter (.∈ NEG_WORDS) words))
          0 texts in
  let label :=
    if decide (2 ≤ score) then of_string "bullish"
    else if decide (score ≤ -2) then of_string "bearish"
    else of_string "neutral" in
  {| score := score; label := label |}.

Record SummaryResult := { summary_of : str; sentiment_of : Sentiment }.

(** The text that [build_summary_sentiment] summarizes. *)
Definition combined_text (items : list FeedItem) : str :=
  join [space] ((λ i, title i ++ of_string ". " ++ summary i) <$> items).

Definition build_summary_sentiment (items : list FeedItem) : SummaryResult :=
  let combined := combined_text items in
  let summary' :=
    match combined with
    | [] => of_string "No items found."
    | _ => summarize_text combined 3
    end in
  let sentiment :=
    sentiment_score ((λ i, title i ++ [space] ++ summary i) <$> items) in
  {| summary_of := summary'; sentiment_of := sentiment |}.

(** ** Extraction of the items *)

(** A feed entry as [extract_items] reads it: the four attributes that it
    looks up, each present or missing. *)
Record FeedEntry := {
  entry_title : option str;
  entry_link : option str;
  entry_summary : option str;
  entry_published : option str
}.

(** [getattr(e, name, "")]: the attribute, or the empty string when the
    entry has none. *)
Definition getattr_or_empty (attr : option str) : str := default [] attr.

(** One turn of the loop of [extract_items] on the list [items] built so
    far. *)
Definition extract_step (source_name : str) (items : list FeedItem)
    (e : FeedEntry) : list FeedItem :=
  let title := normalize_text (Some (getattr_or_empty (entry_title e))) in
  let link := getattr_or_empty (entry_link e) in
  let summary := normalize_text (Some (getattr_or_empty (entry_summary e))) in
  let published := normalize_text (Some (getattr_or_empty (entry_published e))) in
  match title, summary with
  | [], [] => items
  | _, _ =>
      items ++ [ {| source := source_name; title := title; link := Some link;
                    summary := summary; published := published |} ]
  end.

Definition extract_items (entries : list FeedEntry) (source_name : str)
    : list FeedItem :=
  foldl (extract_step source_name) [] entries.

(** ** Escaping for the HTML report *)

(** [s.replace(old, new)] for a pattern [old] of one character. *)
Definition replace (old : N) (new : str) (s : str) : str :=
  s ≫= (λ c, if decide (c = old) then new else [c]).

(** [html.escape(s)] with its default [quote=True]: the five replacements
    of the library, the ampersand first. *)
Definition html_escape (s : str) : str :=
  let s := replace 0x26%N (of_string "&amp;") s in
  let s := replace 0x3c%N (of_string "&lt;") s in
  let s := replace 0x3e%N (of_string "&gt;") s in
  let s := replace 0x22%N (of_string "&quot;") s in
  replace 0x27%N (of_string "&#x27;") s.

(** [esc] of [render_html_report]: [html.escape(s or "")]. *)
Definition esc (s : option str) : str := html_escape (default [] s).

(** * Part 2: the notions of the specification *)

(** ** Maximal runs

    [runs p s] cuts [s] into its maximal runs of characters on which [p]
    agrees; each run carries the value of [p] on it. *)
Fixpoint runs (p : N → bool) (s : str) : list (bool * str) :=
  match s with
  | [] => []
  | c :: s' =>
      match runs p s' with
      | (b, r) :: rest =>
          if decide (b = p c) then (b, c :: r) :: rest
          else (p c, [c]) :: (b, r) :: rest
      | [] => [(p c, [c])]
      end
  end.

(** The runs of [s] on which [p] holds, in order. *)
Definition runs_in (p : N → bool) (s : str) : list str :=
  (filter (λ r, r.1 = true) (runs p s)).*2.

(** Two neighbouring runs differ in the value of [p]. *)
Fixpoint alternate (rs : list (bool * str)) : Prop :=
  match rs with
  | r1 :: (r2 :: _) as rest => r1.1 ≠ r2.1 ∧ alternate rest
  | _ => True
  end.

(** What the scanner [matches] returns on the runs [rs] that are still to
    come when [pre] is the match in progress: the match is continued by the
    first run when [p] holds on that run. *)
Definition resume (pre : str) (rs : list (bool * str)) : list str :=
  match pre, rs with
  | [], _ => (filter (λ r, r.1 = true) rs).*2
  | _, (true, r) :: rest => (pre ++ r) :: (filter (λ r, r.1 = true) rest).*2
  | _, _ => pre :: (filter (λ r, r.1 = true) rs).*2
  end.

(** ** Lower case

    The specification's lowercasing, as far as a class of ASCII characters
    can see it: a capital ASCII letter becomes its small letter; U+0130 and
    U+212A, the two code points outside ASCII whose lower-case form holds
    an ASCII letter, become [i] with U+0307 and [k]; every other character
    stays as it is. *)
Definition lowercase_form (c : N) : str :=
  if decide (0x41 ≤ c ≤ 0x5a)%N then [(c + 0x20)%N]
  else if decide (c = 0x130%N) then of_string "i" ++ [0x307%N]
  else if decide (c = 0x212a%N) then of_string "k"
  else [c].

Definition lowercased (text : str) : str := text ≫= lowercase_form.

(** ** Normalized text

    Every run of white space becomes one space; then the spaces at both
    ends are removed. *)
Definition collapse (rs : list (bool * str)) : str :=
  rs ≫= (λ r : bool * str, if r.1 then [space] else r.2).

Fixpoint ltrim (c : N) (s : str) : str :=
  match s with
  | d :: s' => if decide (d = c) then ltrim c s' else s
  | [] => []
  end.

Definition trim (c : N) (s : str) : str :=
  reverse (ltrim c (reverse (ltrim c s))).

(** White space occurs in [s] only as the space character. *)
Definition only_spaces (s : str) : Prop :=
  Forall (λ c, isspace c = true → c = space) s.

(** ** First occurrences *)

(** The identity key of the specification: the link if the item has a
    link that is not empty, else the title. *)
Definition identity_key (it : FeedItem) : str :=
  if decide (link it = None ∨ link it = Some []) then title it
  else default [] (link it).

(** The item at position [i] is kept when no earlier position holds an item
    with the same identity key. *)
Definition first_occurrences (items : list FeedItem) : list FeedItem :=
  mjoin (imap (λ i it,
                 if decide (identity_key it ∈ identity_key <$> take i items)
                 then []
                 else [it])
              items).

(** An item without link (absent or empty) and with an empty title. *)
Definition blank (it : FeedItem) : Prop :=
  (link it = None ∨ link it = Some []) ∧ title it = [].

(** ** Sentiment *)

(** The occurrences, with multiplicity, of the words of [ws] among the
    tokens of all [texts]. *)
Definition occurrences (ws : gset str) (texts : list str) : nat :=
  length (filter (.∈ ws) (texts ≫= tokenize)).

(** ** Sentences and their ranking *)

(** The sentence boundaries: the positions at which a terminator is
    directly followed by white space. *)
Fixpoint boundaries (s : str) : nat :=
  match s with
  | c :: s' =>
      match s' with
      | d :: _ => if is_terminator c && isspace d then 1 else 0
      | [] => 0
      end + boundaries s'
  | [] => 0
  end.

(** The global frequency of a token: the number of its occurrences among
    the tokens of the whole text. *)
Definition frequency (text : str) (w : str) : Z :=
  Z.of_nat (length (filter (w =.) (tokenize text))).

(** The score of a sentence: the sum of the global frequencies of its
    tokens. *)
Definition sentence_score (text : str) (s : str) : Z :=
  foldr (λ w total, frequency text w + total) 0 (tokenize s).

(** The order of the ranking: the higher score first and, among equal
    scores, the lexicographically later sentence first. *)
Definition ranks_before (a b : Z * str) : Prop :=
  b.1 < a.1 ∨ (b.1 = a.1 ∧ (lexico b.2 a.2 ∨ b.2 = a.2)).

(** ** The summary

    The summary of a long text is made of trimmed sentences with single
    spaces between them. *)

(** The parts one after the other, each but the first behind one space. *)
Definition space_joined (parts : list str) : str :=
  match parts with
  | [] => []
  | p :: rest => p ++ (rest ≫= λ q, space :: q)
  end.

(** [s] has white space neither at its start nor at its end. *)
Definition clean_edges (s : str) : Prop :=
  from_option (λ c, isspace c = false) True (head s)
  ∧ from_option (λ c, isspace c = false) True (last s).

(** [t] is [s] trimmed: [s] is [t] between two runs of white space, and
    [t] has no white space at its ends. *)
Definition trim_of (t s : str) : Prop :=
  clean_edges t
  ∧ ∃ y1 y2, s = y1 ++ t ++ y2
             ∧ Forall (λ c, isspace c = true) y1
             ∧ Forall (λ c, isspace c = true) y2.

(** ** Notions of the further properties *)

(** A character that ends a word of [tokenize]: no letter, no apostrophe,
    and none of the two code points that lower to a letter. *)
Definition is_separator (c : N) : Prop :=
  is_word_char c = false ∧ c ≠ 0x130%N ∧ c ≠ 0x212a%N.

(** The characters of a token: small ASCII letters and the apostrophe. *)
Definition is_token_char (c : N) : bool :=
  between 0x61 0x7a c || (c =? apostrophe)%N.

(** The label that belongs to a score. *)
Definition label_of (score : Z) : str :=
  if decide (2 ≤ score) then of_string "bullish"
  else if decide (score ≤ -2) then of_string "bearish"
  else of_string "neutral".

(** [s] neither starts nor ends with white space. *)
Definition no_edge_space (s : str) : Prop :=
  lstrip s = s ∧ lstrip (reverse s) = reverse s.

(** The entity, or the character itself, that stands for one character in
    escaped text. *)
Definition escape_char (c : N) : str :=
  if decide (c = 0x26%N) then of_string "&amp;"
  else if decide (c = 0x3c%N) then of_string "&lt;"
  else if decide (c = 0x3e%N) then of_string "&gt;"
  else if decide (c = 0x22%N) then of_string "&quot;"
  else if decide (c = 0x27%N) then of_string "&#x27;"
  else [c].

(** The characters with which markup or an attribute value could be
    closed or opened: the angle brackets and both quotes. *)
Definition is_markup_char (c : N) : bool :=
  (c =? 0x3c)%N || (c =? 0x3e)%N || (c =? 0x22)%N || (c =? 0x27)%N.

(** The item that [extract_items] builds from a kept entry. *)
Definition item_of_entry (source_name : str) (e : FeedEntry) : FeedItem :=
  {| source := source_name;
     title := normalize_text (entry_title e);
     link := Some (default [] (entry_link e));
     summary := normalize_text (entry_summary e);
     published := normalize_text (entry_published e) |}.

(** An entry with a character other than white space in its title or in
    its summary. *)
Definition has_text (e : FeedEntry) : Prop :=
  ¬ (Forall (λ c, isspace c = true) (default [] (entry_title e))
     ∧ Forall (λ c, isspace c = true) (default [] (entry_summary e))).

(** * Part 3: proofs *)

(** ** Maximal runs and the scanner *)

Section Runs.
Variable p : N → bool.

(** The runs of [s], put together again, are [s]. *)
Lemma runs_concat s : mjoin (runs p s).*2 = s.
Proof.
  induction s as [|c s IH]; [done|]. simpl.
  destruct (runs p s) as [|[b r] rest]; simpl in *; [by subst|].
  case_decide; simpl; by rewrite <- IH.
Qed.

(** No run is empty, and [p] has the value of the run on all of it. *)
Lemma runs_uniform s :
  Forall (λ r, r.2 ≠ [] ∧ Forall (λ c, p c = r.1) r.2) (runs p s).
Proof.
  induction s as [|c s IH]; simpl; [constructor|].
  destruct (runs p s) as [|[b r] rest].
  - repeat constructor; done.
  - inversion_clear IH as [|?? [? Hr] Hrest]. simpl in *.
    case_decide; subst; repeat constructor; simpl; try done.
Qed.

(** The runs are maximal: no two neighbours could be merged. *)
Lemma runs_alternate s : alternate (runs p s).
Proof.
  induction s as [|c s IH]; simpl; [done|].
  destruct (runs p s) as [|[b r] rest]; [done|].
  case_decide; simpl in *; [|split; [congruence|]]; by destruct rest.
Qed.

Lemma matches_resume s cur :
  matches p cur s = resume (reverse cur) (runs p s).
Proof.
  revert cur. induction s as [|c s IH]; intros cur; simpl.
  - destruct cur as [|d cur]; [done|].
    rewrite reverse_cons. by destruct (reverse cur).
  - destruct (p c) eqn:Hc.
    + rewrite IH, reverse_cons.
      destruct (runs p s) as [|[[] r] rest]; simpl;
        destruct (reverse cur) eqn:Hcur; simpl; try done;
        rewrite ?filter_cons_True by done; simpl; try done;
        by rewrite <- ?app_assoc.
    + destruct cur as [|d cur].
      * rewrite IH. simpl.
        destruct (runs p s) as [|[[] r] rest]; simpl; try done;
          rewrite ?filter_cons_False by done; done.
      * rewrite IH. simpl. rewrite reverse_cons.
        destruct (reverse cur) eqn:Hcur; simpl;
        destruct (runs p s) as [|[[] r] rest]; simpl; try done;
          rewrite ?filter_cons_False by done; done.
Qed.

(** The scanner returns the maximal runs on which [p] holds. *)
Lemma matches_runs s : matches p [] s = runs_in p s.
Proof. apply matches_resume. Qed.

Lemma runs_replicate c n :
  p c = true → runs p (replicate (S n) c) = [(true, replicate (S n) c)].
Proof.
  intros Hc. induction n as [|n IH]; simpl in *; [by rewrite Hc|].
  rewrite IH. rewrite decide_True by done. done.
Qed.

End Runs.

(** ** The tokenizer *)

Lemma lower_char_form c : lower_char c = lowercase_form c.
Proof.
  unfold lower_char, lowercase_form, between.
  destruct (N.leb_spec 0x41 c), (N.leb_spec c 0x5a); simpl;
    (case_decide; [try lia|]); try done; try lia;
    destruct (N.eqb_spec c 0x130), (N.eqb_spec c 0x212a);
    repeat case_decide; done || lia.
Qed.

(** The program lowers a text as the specification does. *)
Lemma lower_lowercased text : lower text = lowercased text.
Proof.
  unfold lower, lowercased. induction text as [|c text IH]; [done|].
  by rewrite !bind_cons, IH, lower_char_form.
Qed.

(** C7: [tokenize] lowercases the text, takes as candidates the maximal runs
    of ASCII letters and apostrophes of the lowercased text, and returns,
    in order and with multiplicity, the candidates that are no stopword and
    are longer than 2; so no token is a stopword or shorter than 3. *)
Theorem tokenize_candidates (text : str) :
  tokenize text =
    filter (λ w, (w ∉ STOPWORDS) ∧ (2 < length w)%nat)
           (runs_in is_word_char (lowercased text))
  ∧ Forall (λ w, (w ∉ STOPWORDS) ∧ (3 ≤ length w)%nat) (tokenize text).
Proof.
  unfold tokenize, findall_words. rewrite matches_runs, lower_lowercased.
  split; [done|].
  apply Forall_forall. intros w [Hw ?]%list_elem_of_filter. split; [tauto | lia].
Qed.

(** Capitals are lowered, stopwords ("the", "of", "and") and short words
    ("it") are dropped, and a digit or a hyphen ends a candidate. *)
Lemma tokenize_candidates_witness :
  tokenize (of_string "The STRONG Growth of IT and Sales-2 isn't weak")
  = of_string <$> ["strong"; "growth"; "sales"; "isn't"; "weak"]%string.
Proof.
  rewrite (proj1 (tokenize_candidates _)). by vm_compute.
Defined.

Lemma lower_apostrophes n :
  lower (replicate n apostrophe) = replicate n apostrophe.
Proof.
  unfold lower. induction n as [|n IH]; [done|].
  change (replicate (S n) apostrophe) with (apostrophe :: replicate n apostrophe).
  by rewrite bind_cons, IH.
Qed.

Lemma stopwords_start_with_letter w :
  w ∈ STOPWORDS → ∃ c w', w = c :: w' ∧ isalpha_ascii c = true.
Proof.
  unfold STOPWORDS. rewrite elem_of_list_to_set. intros Hw.
  assert (from_option isalpha_ascii false (head w) = true) as Hhd.
  { revert w Hw. apply Forall_forall.
    apply (bool_decide_unpack _). by vm_compute. }
  destruct w as [|c w']; [done|]. eauto.
Qed.

(** C10: a run of three or more apostrophes is a token although it has no
    letter: it is a candidate, no stopword, and longer than 2. *)
Theorem tokenize_apostrophes (n : nat) :
  (3 ≤ n)%nat →
  tokenize (replicate n apostrophe) = [replicate n apostrophe]
  ∧ Forall (λ c, isalpha_ascii c = false) (replicate n apostrophe).
Proof.
  intros Hn. split.
  - unfold tokenize, findall_words. rewrite matches_runs, lower_apostrophes.
    destruct n as [|n]; [lia|]. unfold runs_in.
    rewrite runs_replicate by done. rewrite filter_cons_True by done. simpl.
    rewrite filter_cons_True; [done|]. split.
    + intros (c & w' & Hw & Hc)%stopwords_start_with_letter.
      simpl in Hw. by simplify_eq.
    + simpl. rewrite length_replicate. lia.
  - by apply Forall_replicate.
Qed.

Lemma tokenize_apostrophes_witness :
  tokenize (of_string "'''") = [of_string "'''"]
  ∧ Forall (λ c, isalpha_ascii c = false) (of_string "'''").
Proof. apply (tokenize_apostrophes 3). lia. Defined.

(** ** The normalizer *)

Lemma sub_spaces_runs s :
  sub_spaces false s = collapse (runs isspace s)
  ∧ sub_spaces true s =
      match runs isspace s with
      | (true, _) :: rest => collapse rest
      | rs => collapse rs
      end.
Proof.
  unfold collapse. induction s as [|c s [IHf IHt]]; [done|]. simpl.
  rewrite IHf, IHt. clear IHf IHt.
  destruct (isspace c) eqn:Hc, (runs isspace s) as [|[[] r] rest]; simpl;
    rewrite ?Hc; done.
Qed.

Lemma collapse_only_spaces s : only_spaces (collapse (runs isspace s)).
Proof.
  unfold only_spaces, collapse. apply Forall_bind.
  eapply Forall_impl; [apply runs_uniform|].
  intros [[] r] [_ Hr]; simpl in *.
  - by repeat constructor.
  - eapply Forall_impl; [done|]. simpl. congruence.
Qed.

Lemma lstrip_only_spaces s : only_spaces s → lstrip s = ltrim space s.
Proof.
  induction 1 as [|c s Hc _ IH]; [done|]. simpl.
  destruct (isspace c) eqn:E.
  - rewrite decide_True by auto. done.
  - rewrite decide_False; [done|]. by intros ->.
Qed.

Lemma ltrim_only_spaces c s : only_spaces s → only_spaces (ltrim c s).
Proof.
  induction 1 as [|d s Hd Hs IH]; simpl; [constructor|].
  case_decide; [done|]. by constructor.
Qed.

Lemma strip_only_spaces s : only_spaces s → strip s = trim space s.
Proof.
  intros Hs. unfold strip, rstrip, trim.
  rewrite (lstrip_only_spaces s) by done.
  rewrite lstrip_only_spaces; [done|].
  by apply Forall_reverse, ltrim_only_spaces.
Qed.

(** C8: [normalize_text] is defined on every string and on the absent
    input, which it reads as the empty string; it returns the text in which
    each maximal run of white space is replaced by one space and the spaces
    at both ends are removed. *)
Theorem normalize_text_collapses (text : option str) :
  normalize_text text = trim space (collapse (runs isspace (default [] text))).
Proof.
  unfold normalize_text.
  rewrite (proj1 (sub_spaces_runs _)).
  apply strip_only_spaces, collapse_only_spaces.
Qed.

(** ** The deduplicator *)

Lemma blank_key it : blank it ↔ item_key it = [].
Proof.
  unfold blank, item_key.
  destruct (link it) as [[|c l]|]; intuition (auto; congruence).
Qed.

Lemma filter_none {A} (P : A → Prop) `{∀ x, Decision (P x)} (l : list A) :
  Forall (λ x, ¬ P x) l → filter P l = [].
Proof.
  induction 1 as [|x l Hx _ IH]; [done|]. by rewrite filter_cons_False.
Qed.

Section Dedupe.
Implicit Types (items : list FeedItem) (it : FeedItem) (k : str).

(** After the loop [seen] holds the keys of the items read. *)
Lemma dedupe_seen items k :
  k ∈ (foldl dedupe_step (∅, []) items).1 ↔ k ∈ item_key <$> items.
Proof.
  induction items as [|it items IH] using rev_ind.
  - simpl. rewrite elem_of_empty, elem_of_nil. done.
  - rewrite foldl_snoc, fmap_app, elem_of_app. unfold dedupe_step at 1.
    simpl. rewrite list_elem_of_singleton.
    case_decide as Hin; simpl.
    + rewrite IH. split; [by left|]. intros [?| ->]; [done|].
      by apply IH.
    + rewrite elem_of_union, elem_of_singleton, IH. tauto.
Qed.

Lemma dedupe_snoc items it :
  dedupe (items ++ [it]) =
    if decide (item_key it ∈ item_key <$> items) then dedupe items
    else dedupe items ++ [it].
Proof.
  unfold dedupe. rewrite foldl_snoc. unfold dedupe_step at 1.
  repeat case_decide; try done; exfalso; by rewrite dedupe_seen in *.
Qed.

(** The key that the loop computes is the identity key. *)
Lemma item_key_identity it : item_key it = identity_key it.
Proof.
  unfold item_key, identity_key. by destruct (link it) as [[|c l]|].
Qed.

Lemma item_keys_identity items : item_key <$> items = identity_key <$> items.
Proof. apply list_fmap_ext. intros _ it _. apply item_key_identity. Qed.

Lemma dedupe_first_occurrences items : dedupe items = first_occurrences items.
Proof.
  unfold first_occurrences.
  induction items as [|it items IH] using rev_ind; [done|].
  rewrite dedupe_snoc, imap_app, join_app. simpl.
  rewrite Nat.add_0_r, take_app_length, app_nil_r.
  rewrite (imap_ext _ (λ i it0,
    if decide (identity_key it0 ∈ identity_key <$> take i items)
    then [] else [it0])).
  - rewrite <- IH, item_key_identity, item_keys_identity.
    case_decide; [by rewrite app_nil_r|done].
  - intros i x Hx. apply lookup_lt_Some in Hx.
    by rewrite take_app_le by lia.
Qed.

Lemma dedupe_sublist items : dedupe items `sublist_of` items.
Proof.
  induction items as [|it items IH] using rev_ind; [done|].
  rewrite dedupe_snoc. case_decide.
  - by apply sublist_inserts_r.
  - by apply sublist_app.
Qed.

Lemma dedupe_keys items k :
  k ∈ item_key <$> dedupe items ↔ k ∈ item_key <$> items.
Proof.
  induction items as [|it items IH] using rev_ind; [done|].
  rewrite dedupe_snoc.
  case_decide as Hin; rewrite !fmap_app, ?elem_of_app, IH; [|done].
  simpl. rewrite list_elem_of_singleton. split; [by left|].
  by intros [?| ->].
Qed.

Lemma dedupe_NoDup items : NoDup (item_key <$> dedupe items).
Proof.
  induction items as [|it items IH] using rev_ind; [constructor|].
  rewrite dedupe_snoc. case_decide; [done|].
  rewrite fmap_app. apply NoDup_app. split_and!; [done| |apply NoDup_singleton].
  intros k Hk Hit. apply (proj1 (dedupe_keys _ _)) in Hk.
  simpl in Hit. apply list_elem_of_singleton in Hit. by subst.
Qed.

(** A list without repeated keys is left as it is. *)
Lemma dedupe_id items : NoDup (item_key <$> items) → dedupe items = items.
Proof.
  induction items as [|it items IH] using rev_ind; [done|].
  rewrite fmap_app. intros (Hnd & Hit & _)%NoDup_app.
  rewrite dedupe_snoc, IH by done.
  rewrite decide_False; [done|]. intros ?. eapply Hit; [done|].
  simpl. by apply list_elem_of_singleton.
Qed.

Lemma NoDup_key_once (P : FeedItem → Prop) `{∀ it, Decision (P it)} k items :
  (∀ it, P it → item_key it = k) →
  NoDup (item_key <$> items) →
  (length (filter P items) ≤ 1)%nat.
Proof.
  intros HP. induction items as [|it items IH]; simpl; [lia|].
  intros [Hit Hnd]%NoDup_cons. destruct (decide (P it)) as [Hk|Hk].
  - rewrite filter_cons_True by done. simpl.
    rewrite filter_none; [simpl; lia|].
    apply Forall_forall. intros x Hx Hxk. apply Hit.
    rewrite (HP _ Hk), <- (HP _ Hxk). by apply list_elem_of_fmap_2.
  - rewrite filter_cons_False by done. auto.
Qed.

End Dedupe.

(** C4: [dedupe] keeps exactly the first occurrence of every identity key,
    the link if it is not empty and else the title, in input order: the
    output is the sequence of the first occurrences, it is a subsequence of
    the input, no identity key occurs twice in it, and at most one item
    with neither link nor title is kept. *)
Theorem dedupe_keeps_first (items : list FeedItem) :
  dedupe items = first_occurrences items
  ∧ dedupe items `sublist_of` items
  ∧ NoDup (identity_key <$> dedupe items)
  ∧ (length (filter blank (dedupe items)) ≤ 1)%nat.
Proof.
  split_and!.
  - apply dedupe_first_occurrences.
  - apply dedupe_sublist.
  - rewrite <- item_keys_identity. apply dedupe_NoDup.
  - apply (NoDup_key_once _ []); [apply blank_key | apply dedupe_NoDup].
Qed.

(** Five items: the second repeats the link of the first under another
    title, the fourth has an empty link and the title of the third, which
    has no link, and the fifth has that title too but a link of its own. *)
Lemma dedupe_keeps_first_witness :
  let item (t : str) (l : option str) :=
    {| source := []; title := t; link := l; summary := []; published := [] |} in
  dedupe [item (of_string "a") (Some (of_string "x"));
          item (of_string "b") (Some (of_string "x"));
          item (of_string "c") None;
          item (of_string "c") (Some []);
          item (of_string "c") (Some (of_string "y"))]
  = [item (of_string "a") (Some (of_string "x"));
     item (of_string "c") None;
     item (of_string "c") (Some (of_string "y"))].
Proof.
  intros item. rewrite (proj1 (dedupe_keeps_first _)). by vm_compute.
Defined.

(** C6: [dedupe] is idempotent. *)
Theorem dedupe_idempotent (items : list FeedItem) :
  dedupe (dedupe items) = dedupe items.
Proof. apply dedupe_id, dedupe_NoDup. Qed.

(** ** The sentiment scorer *)

Lemma foldl_add_ones {A} (l : list A) (a : Z) :
  foldl Z.add a ((λ _, 1) <$> l) = a + Z.of_nat (length l).
Proof.
  revert a. induction l as [|x l IH]; intros a; simpl; [lia|].
  rewrite IH. lia.
Qed.

Lemma sum_ones {A} (l : list A) : sum ((λ _, 1) <$> l) = Z.of_nat (length l).
Proof. unfold sum. by rewrite foldl_add_ones. Qed.

Lemma occurrences_cons ws t texts :
  occurrences ws (t :: texts) =
    (length (filter (.∈ ws) (tokenize t)) + occurrences ws texts)%nat.
Proof. unfold occurrences. by rewrite bind_cons, filter_app, length_app. Qed.

(** The running score of the loop, started at [a]. *)
Lemma sentiment_fold texts (a : Z) :
  foldl (λ score t,
           let words := tokenize t in
           let score := score + sum ((λ _, 1) <$> filter (.∈ POS_WORDS) words) in
           score - sum ((λ _, 1) <$> filter (.∈ NEG_WORDS) words))
        a texts
  = a + Z.of_nat (occurrences POS_WORDS texts)
      - Z.of_nat (occurrences NEG_WORDS texts).
Proof.
  revert a. induction texts as [|t texts IH]; intros a.
  - unfold occurrences. simpl. lia.
  - simpl. rewrite IH, !sum_ones, !occurrences_cons. lia.
Qed.

(** C1: the score is the number of occurrences of positive words minus the
    number of occurrences of negative words among the tokens of all texts;
    the label is "bullish" from 2 on, "bearish" from -2 down and "neutral"
    in between, so 2 is bullish, -2 is bearish and 0 is neutral. *)
Theorem sentiment_score_counts (texts : list str) :
  let r := sentiment_score texts in
  score r = Z.of_nat (occurrences POS_WORDS texts)
            - Z.of_nat (occurrences NEG_WORDS texts)
  ∧ (2 ≤ score r → label r = of_string "bullish")
  ∧ (score r ≤ -2 → label r = of_string "bearish")
  ∧ (-2 < score r < 2 → label r = of_string "neutral").
Proof.
  simpl. split; [rewrite sentiment_fold; lia|].
  split_and!; intros ?; repeat case_decide; done || lia.
Qed.

Lemma sentiment_score_counts_witness :
  (score (sentiment_score [of_string "Strong growth"]) = 2
   ∧ label (sentiment_score [of_string "Strong growth"]) = of_string "bullish")
  ∧ (score (sentiment_score [of_string "Weak quarter"; of_string "Shares plunge"]) = -2
     ∧ label (sentiment_score [of_string "Weak quarter"; of_string "Shares plunge"])
       = of_string "bearish")
  ∧ (score (sentiment_score [of_string "Upgrade, then a downgrade"]) = 0
     ∧ label (sentiment_score [of_string "Upgrade, then a downgrade"])
       = of_string "neutral").
Proof.
  split_and!.
  - by vm_compute.
  - apply (sentiment_score_counts [of_string "Strong growth"]). by vm_compute.
  - by vm_compute.
  - apply (sentiment_score_counts
             [of_string "Weak quarter"; of_string "Shares plunge"]).
    by vm_compute.
  - by vm_compute.
  - apply (sentiment_score_counts [of_string "Upgrade, then a downgrade"]).
    by vm_compute.
Defined.

(** ** The orchestrator *)

(** C3: on the empty batch the summary is the fallback string and the
    sentiment, computed over no text, is score 0 with label "neutral". *)
Theorem build_summary_sentiment_empty :
  combined_text [] = []
  ∧ build_summary_sentiment [] =
      {| summary_of := of_string "No items found.";
         sentiment_of := {| score := 0; label := of_string "neutral" |} |}.
Proof. split; reflexivity. Qed.

Lemma join_cons_nil sep p rest : join sep (p :: rest) = [] → p = [].
Proof. destruct rest; simpl; [done|]. by intros [? _]%app_eq_nil. Qed.

(** C9: the combined text is empty exactly for the empty batch, so the
    fallback is used for it alone; for every other batch, also one whose
    titles and summaries are all empty, the summary is that of the
    summarizer on the combined text with [max_sentences] 3. *)
Theorem build_summary_sentiment_fallback (items : list FeedItem) :
  (combined_text items = [] ↔ items = [])
  ∧ (items = [] →
     summary_of (build_summary_sentiment items) = of_string "No items found.")
  ∧ (items ≠ [] →
     summary_of (build_summary_sentiment items)
     = summarize_text (combined_text items) 3).
Proof.
  assert (combined_text items = [] ↔ items = []) as Hiff.
  { split; [|by intros ->]. destruct items as [|it items]; [done|].
    unfold combined_text. rewrite fmap_cons.
    by intros [_ ?]%join_cons_nil%app_eq_nil. }
  split_and!; [done|by intros ->|].
  intros Hne. unfold build_summary_sentiment. simpl.
  destruct (combined_text items); [|done]. destruct Hne. by apply Hiff.
Qed.

Lemma build_summary_sentiment_fallback_witness :
  let it := {| source := []; title := []; link := None;
               summary := []; published := [] |} in
  combined_text [it; it] = of_string ".  . "
  ∧ summary_of (build_summary_sentiment [it; it])
    = summarize_text (combined_text [it; it]) 3.
Proof.
  intros it. split; [reflexivity|].
  apply (build_summary_sentiment_fallback [it; it]). done.
Defined.

(** ** The summarizer *)

Lemma space_not_terminator c : isspace c = true → is_terminator c = false.
Proof.
  intros Hc. unfold is_terminator.
  repeat match goal with
         | |- context [(c =? ?n)%N] =>
             destruct (N.eqb_spec c n) as [->|_]; [by vm_compute in Hc|]
         end.
  done.
Qed.

Lemma split_after_terminator_length s after_term in_sep cur :
  length (split_after_terminator after_term in_sep cur s) =
    S (match s with
       | d :: _ => if after_term && negb in_sep && isspace d then 1 else 0
       | [] => 0
       end + boundaries s).
Proof.
  revert after_term in_sep cur.
  induction s as [|c s IH]; intros after_term in_sep cur; [done|].
  cbn [split_after_terminator boundaries].
  destruct (isspace c) eqn:Hc.
  - rewrite (space_not_terminator c Hc).
    destruct in_sep, after_term; cbn [length]; rewrite IH;
      destruct s; simpl; lia.
  - rewrite IH, !andb_false_r. destruct s; simpl; [done|].
    rewrite andb_true_r. lia.
Qed.

(** There is one sentence more than there are boundaries. *)
Lemma split_sentences_length s :
  length (split_sentences s) = S (boundaries s).
Proof.
  unfold split_sentences. rewrite split_after_terminator_length.
  by destruct s.
Qed.

(** C5: a text that has at most [max_sentences] sentences, one more than it
    has boundaries, is returned trimmed of white space and otherwise
    unchanged. *)
Theorem summarize_text_short (text : str) (max_sentences : Z) :
  Z.of_nat (S (boundaries text)) ≤ max_sentences →
  length (split_sentences text) = S (boundaries text)
  ∧ summarize_text text max_sentences = strip text.
Proof.
  intros Hle. split; [apply split_sentences_length|].
  unfold summarize_text. rewrite split_sentences_length.
  by rewrite decide_True.
Qed.

Lemma summarize_text_short_witness :
  summarize_text (of_string "  Shares rose. Outlook unchanged.  ") 3
  = of_string "Shares rose. Outlook unchanged.".
Proof.
  apply (summarize_text_short (of_string "  Shares rose. Outlook unchanged.  ") 3).
  by vm_compute.
Defined.

Lemma StronglySorted_weaken {A} (R R' : relation A) (l : list A) :
  (∀ a b, R a b → R' a b) → StronglySorted R l → StronglySorted R' l.
Proof.
  intros HR. induction 1 as [|x l ? IH Hx]; constructor; [done|].
  eapply Forall_impl; eauto.
Qed.

Section Ranking.
Implicit Types (a b c : Z * str).

Lemma Counter_fold (words : list str) (freq : gmap str Z) (w : str) :
  default 0
    (foldl (λ freq w, <[ w := default 0 (freq !! w) + 1 ]> freq) freq words !! w)
  = default 0 (freq !! w) + Z.of_nat (length (filter (w =.) words)).
Proof.
  revert freq. induction words as [|v words IH]; intros freq; simpl; [lia|].
  rewrite IH, lookup_insert. destruct (decide (w = v)) as [->|Hne].
  - rewrite decide_True, filter_cons_True by done. simpl. lia.
  - rewrite decide_False, filter_cons_False by done. lia.
Qed.

(** The counter holds, for every word, the number of its occurrences. *)
Lemma count_of_Counter (words : list str) (w : str) :
  count_of (Counter words) w = Z.of_nat (length (filter (w =.) words)).
Proof. unfold count_of, Counter. by rewrite Counter_fold, lookup_empty. Qed.

Lemma foldl_add_foldr (xs : list Z) (a : Z) :
  foldl Z.add a xs = a + foldr Z.add 0 xs.
Proof.
  revert a. induction xs as [|x xs IH]; intros a; simpl; [lia|].
  rewrite IH. lia.
Qed.

Lemma score_of_sentence (text s : str) :
  sum (count_of (Counter (tokenize text)) <$> tokenize s)
  = sentence_score text s.
Proof.
  unfold sum, sentence_score. rewrite foldl_add_foldr, Z.add_0_l.
  induction (tokenize s) as [|w ws IH]; [done|].
  rewrite fmap_cons. simpl. by rewrite IH, count_of_Counter.
Qed.

Lemma not_lexico_str (s t : str) : ¬ lexico s t ↔ lexico t s ∨ t = s.
Proof.
  split.
  - intros Hn. destruct (trichotomy (lexico : relation str) s t) as [?|[?|?]];
      [done|by right|by left].
  - intros [Hts| ->] Hst; apply (irreflexivity (lexico : relation str) s);
      [by etrans|done].
Qed.

(** [x1] is taken first by the sort exactly when it ranks before [x2]. *)
Lemma not_tuple_lt a b : ¬ tuple_lt a b ↔ ranks_before a b.
Proof.
  unfold tuple_lt, ranks_before. rewrite <- not_lexico_str.
  unfold lexico at 1, prod_lexico, lexico at 1, Z_lexico.
  destruct (Z.lt_trichotomy a.1 b.1) as [?|[?|?]]; intuition lia.
Qed.

Global Instance ranks_before_trans : Transitive ranks_before.
Proof.
  intros a b c [?|[? Hab]] [?|[? Hbc]]; unfold ranks_before; try (left; lia).
  right. split; [lia|].
  destruct Hab as [?|Hab], Hbc as [?|Hbc]; rewrite <- ?Hab, ?Hbc; auto.
  left. by etrans.
Qed.

Global Instance ranks_before_total : Total ranks_before.
Proof.
  intros a b. unfold ranks_before.
  destruct (Z.lt_trichotomy a.1 b.1) as [?|[?|?]]; [by right; left| |by left; left].
  destruct (trichotomy (lexico : relation str) a.2 b.2) as [?|[?|?]];
    [right|left|left]; right; auto.
Qed.

Global Instance ranks_before_antisymm : AntiSymm (=) ranks_before.
Proof.
  intros [x s] [y t] [?|[? Hab]] [?|[? Hba]]; simpl in *; try lia. subst.
  destruct Hab as [Hab|?], Hba as [Hba|?]; try by subst.
  destruct (irreflexivity (lexico : relation str) s). by etrans.
Qed.

Global Instance not_tuple_lt_trans : Transitive (λ a b, ¬ tuple_lt a b).
Proof. intros a b c. rewrite !not_tuple_lt. apply ranks_before_trans. Qed.

Global Instance not_tuple_lt_total : Total (λ a b, ¬ tuple_lt a b).
Proof. intros a b. rewrite !not_tuple_lt. apply ranks_before_total. Qed.

Lemma sorted_reverse_perm xs : sorted_reverse xs ≡ₚ xs.
Proof. apply merge_sort_Permutation. Qed.

Lemma sorted_reverse_sorted xs : StronglySorted ranks_before (sorted_reverse xs).
Proof.
  eapply StronglySorted_weaken; [|apply (StronglySorted_merge_sort _)].
  intros a b. apply not_tuple_lt.
Qed.

(** A ranking is determined by what it ranks. *)
Lemma ranking_unique (l1 l2 : list (Z * str)) :
  StronglySorted ranks_before l1 → StronglySorted ranks_before l2 →
  l1 ≡ₚ l2 → l1 = l2.
Proof. apply StronglySorted_unique. apply _. Qed.

Lemma slice_to_nonneg {A} (k : Z) (xs : list A) :
  0 ≤ k → slice_to k xs = take (Z.to_nat k) xs.
Proof. intros. unfold slice_to. by rewrite decide_False by lia. Qed.

(** A negative bound makes the slice of the source count from the end; the
    specification does not speak of a negative [max_sentences]. *)
Lemma slice_to_neg {A} (k : Z) (xs : list A) :
  k < 0 → slice_to k xs = take (length xs - Z.to_nat (- k)) xs.
Proof.
  intros. unfold slice_to. rewrite decide_True by done. f_equal. lia.
Qed.

End Ranking.

(** * Part 4: further properties of the code *)

(** ** The scanner *)

Section Matches.
Variable p : N → bool.

(** A character outside the class ends the match in progress. *)
Lemma matches_app_sep a c b cur :
  p c = false →
  matches p cur (a ++ c :: b) = matches p cur a ++ matches p [] b.
Proof.
  intros Hc. revert cur. induction a as [|d a IH]; intros cur; simpl.
  - rewrite Hc. by destruct cur.
  - destruct (p d); [apply IH|]. destruct cur; by rewrite IH.
Qed.

(** A string of the class is one match. *)
Lemma matches_all w cur :
  Forall (λ c, p c = true) w → reverse cur ++ w ≠ [] →
  matches p cur w = [reverse cur ++ w].
Proof.
  intros Hw. revert cur. induction Hw as [|c w Hc _ IH]; intros cur Hne; simpl.
  - rewrite app_nil_r in *. destruct cur; [done|]. done.
  - rewrite Hc, IH; rewrite reverse_cons, <- app_assoc; [done|].
    by destruct (reverse cur).
Qed.

(** A string outside the class adds nothing to the match in progress. *)
Lemma matches_none w cur :
  Forall (λ c, p c = false) w →
  matches p cur w = match cur with [] => [] | _ => [reverse cur] end.
Proof.
  intros Hw. revert cur. induction Hw as [|c w Hc _ IH]; intros cur; simpl; [done|].
  rewrite Hc, IH. by destruct cur.
Qed.

Lemma matches_app_none a w cur :
  Forall (λ c, p c = false) w → matches p cur (a ++ w) = matches p cur a.
Proof.
  intros Hw. revert cur. induction a as [|d a IH]; intros cur; simpl.
  - by apply matches_none.
  - destruct (p d); [apply IH|]. destruct cur; by rewrite IH.
Qed.

(** Every match is made of characters of the class that occur in the
    text. *)
Lemma matches_Forall (P : N → Prop) s cur :
  (∀ c, c ∈ s → p c = true → P c) → Forall P cur →
  Forall (Forall P) (matches p cur s).
Proof.
  revert cur. induction s as [|c s IH]; intros cur Hs Hcur; simpl.
  - destruct cur; repeat constructor. by apply Forall_reverse.
  - destruct (p c) eqn:Hc.
    + apply IH; [intros; apply Hs; [by right|done]|].
      constructor; [apply Hs; [by left|done]|done].
    + assert (Forall (Forall P) (matches p [] s)) as Hrest.
      { apply IH; [intros; apply Hs; [by right|done]|constructor]. }
      destruct cur; [done|]. constructor; [by apply Forall_reverse|done].
Qed.

End Matches.

(** ** The tokenizer, continued *)

Lemma lower_app a b : lower (a ++ b) = lower a ++ lower b.
Proof. apply bind_app. Qed.

Lemma lower_char_separator c : is_separator c → lower_char c = [c].
Proof.
  intros (Hw & H1 & H2). unfold lower_char.
  unfold is_word_char in Hw. apply orb_false_elim in Hw as [Hw _].
  apply orb_false_elim in Hw as [_ ->].
  by rewrite (proj2 (N.eqb_neq _ _) H1), (proj2 (N.eqb_neq _ _) H2).
Qed.

Lemma tokenize_separator (a b : str) (c : N) :
  is_separator c →
  tokenize (a ++ c :: b) = tokenize a ++ tokenize b.
Proof.
  intros Hc. unfold tokenize, findall_words.
  assert (lower [c] = [c]) as Hlow
    by (unfold lower; rewrite bind_singleton; by apply lower_char_separator).
  change (c :: b) with ([c] ++ b).
  rewrite !lower_app, Hlow.
  change ([c] ++ lower b) with (c :: lower b).
  rewrite matches_app_sep by apply Hc. by rewrite filter_app.
Qed.

Lemma tokenize_separators (sep b : str) :
  Forall is_separator sep → tokenize (sep ++ b) = tokenize b.
Proof.
  induction 1 as [|c sep Hc _ IH]; [done|].
  change ((c :: sep) ++ b) with ([] ++ c :: (sep ++ b)).
  by rewrite tokenize_separator, IH.
Qed.

(** X1: a separator between two texts keeps their tokens apart: when a
    string of one or more characters that are neither letters nor
    apostrophes stands between them, the tokens of the whole are those of
    the left text followed by those of the right text. *)
Theorem tokenize_app_sep (a sep b : str) :
  sep ≠ [] → Forall is_separator sep →
  tokenize (a ++ sep ++ b) = tokenize a ++ tokenize b.
Proof.
  intros Hne Hsep. destruct Hsep as [|c sep Hc Hsep]; [done|].
  simpl. rewrite tokenize_separator by done.
  by rewrite tokenize_separators.
Qed.

Lemma tokenize_app_sep_witness :
  tokenize (of_string "Sales beat" ++ of_string ". " ++ of_string "Shares rose")
  = tokenize (of_string "Sales beat") ++ tokenize (of_string "Shares rose").
Proof.
  apply tokenize_app_sep; [done|].
  repeat constructor; by vm_compute.
Defined.

Lemma between_lower d :
  between 0x41 0x5a d = true → between 0x61 0x7a (d + 32) = true.
Proof.
  unfold between. rewrite !andb_true_iff, !N.leb_le. lia.
Qed.

Lemma lower_token_char text c :
  c ∈ lower text → is_word_char c = true → is_token_char c = true.
Proof.
  unfold lower. intros (d & Hc & _)%list_elem_of_bind Hw.
  unfold lower_char in Hc. unfold is_token_char.
  destruct (between 0x41 0x5a d) eqn:Hup.
  - apply list_elem_of_singleton in Hc as ->. by rewrite between_lower.
  - destruct (N.eqb_spec d 0x130).
    { apply elem_of_cons in Hc as [->|Hc]; [done|].
      apply list_elem_of_singleton in Hc as ->. done. }
    destruct (N.eqb_spec d 0x212a).
    { apply list_elem_of_singleton in Hc as ->. done. }
    apply list_elem_of_singleton in Hc as ->.
    unfold is_word_char in Hw. rewrite Hup, orb_false_r in Hw. done.
Qed.

(** X2: every token is made of small ASCII letters and apostrophes only,
    whatever the case of the text. *)
Theorem tokenize_token_chars (text : str) :
  Forall (Forall (λ c, is_token_char c = true)) (tokenize text).
Proof.
  unfold tokenize, findall_words. apply Forall_forall.
  intros w [_ Hw]%list_elem_of_filter. revert w Hw. apply Forall_forall.
  apply matches_Forall; [|constructor]. apply lower_token_char.
Qed.

(** ** The sentiment scorer, continued *)

(** The result in closed form: the score and the label that belongs to
    it. *)
Lemma sentiment_score_eq texts :
  sentiment_score texts =
    {| score := Z.of_nat (occurrences POS_WORDS texts)
                - Z.of_nat (occurrences NEG_WORDS texts);
       label := label_of (Z.of_nat (occurrences POS_WORDS texts)
                          - Z.of_nat (occurrences NEG_WORDS texts)) |}.
Proof.
  unfold sentiment_score, label_of. cbv zeta. rewrite sentiment_fold.
  rewrite Z.add_0_l. done.
Qed.

Lemma occurrences_app ws xs ys :
  occurrences ws (xs ++ ys) = (occurrences ws xs + occurrences ws ys)%nat.
Proof. unfold occurrences. by rewrite bind_app, filter_app, length_app. Qed.

(** X3: the score of two batches of texts together is the sum of their
    scores. *)
Theorem sentiment_score_app (xs ys : list str) :
  score (sentiment_score (xs ++ ys))
  = score (sentiment_score xs) + score (sentiment_score ys).
Proof. rewrite !sentiment_score_eq. simpl. rewrite !occurrences_app. lia. Qed.

(** X4: the order of the texts does not matter. *)
Theorem sentiment_score_permutation (xs ys : list str) :
  xs ≡ₚ ys → sentiment_score xs = sentiment_score ys.
Proof.
  intros Hp. rewrite !sentiment_score_eq.
  assert (∀ ws, occurrences ws xs = occurrences ws ys) as Hocc.
  { intros ws. unfold occurrences. by rewrite Hp. }
  by rewrite !Hocc.
Qed.

Lemma sentiment_score_permutation_witness :
  sentiment_score [of_string "Strong growth"; of_string "Shares plunge"]
  = sentiment_score [of_string "Shares plunge"; of_string "Strong growth"].
Proof. apply sentiment_score_permutation. apply Permutation_swap. Defined.

(** X5: the score lies between minus and plus the number of tokens of the
    texts. *)
Theorem sentiment_score_bounded (texts : list str) :
  - Z.of_nat (length (texts ≫= tokenize))
  ≤ score (sentiment_score texts)
  ≤ Z.of_nat (length (texts ≫= tokenize)).
Proof.
  rewrite sentiment_score_eq. simpl. unfold occurrences.
  pose proof (length_filter (.∈ POS_WORDS) (texts ≫= tokenize)).
  pose proof (length_filter (.∈ NEG_WORDS) (texts ≫= tokenize)).
  lia.
Qed.

(** Texts with the same tokens have the same sentiment. *)
Lemma sentiment_score_tokens xs ys :
  xs ≫= tokenize = ys ≫= tokenize → sentiment_score xs = sentiment_score ys.
Proof.
  intros Heq. rewrite !sentiment_score_eq. unfold occurrences. by rewrite Heq.
Qed.

Lemma space_separator : is_separator space.
Proof. by vm_compute. Qed.

(** X6: the sentiment of a batch of items is that of their titles and
    their summaries taken as texts of their own: joining a title and a
    summary by a space neither merges nor splits a token. *)
Theorem build_summary_sentiment_fields (items : list FeedItem) :
  sentiment_of (build_summary_sentiment items)
  = sentiment_score (items ≫= λ i, [title i; summary i]).
Proof.
  unfold build_summary_sentiment. simpl. apply sentiment_score_tokens.
  induction items as [|i items IH]; [done|].
  rewrite fmap_cons, !bind_cons, IH. simpl.
  rewrite (tokenize_separator (title i) (summary i)) by apply space_separator.
  by rewrite <- app_assoc.
Qed.

(** ** The deduplicator, continued *)

Lemma dedupe_app_filter (xs ys : list FeedItem) :
  dedupe (xs ++ ys) =
    dedupe xs ++ filter (λ it, item_key it ∉ item_key <$> xs) (dedupe ys).
Proof.
  induction ys as [|y ys IH] using rev_ind; [by rewrite app_nil_r, app_nil_r|].
  rewrite app_assoc, !dedupe_snoc, fmap_app.
  destruct (decide (item_key y ∈ item_key <$> ys)) as [Hys|Hys].
  - rewrite decide_True; [done|]. apply elem_of_app. by right.
  - rewrite filter_app.
    destruct (decide (item_key y ∈ item_key <$> xs)) as [Hxs|Hxs].
    + rewrite decide_True by (apply elem_of_app; by left).
      rewrite (filter_cons_False _ y) by tauto. by rewrite app_nil_r.
    + rewrite decide_False by (rewrite elem_of_app; tauto).
      rewrite (filter_cons_True _ y) by done. by rewrite IH, <- app_assoc.
Qed.

(** X7: in a batch put together from two sources the earlier source wins:
    the result is the deduplicated first part followed by those items of
    the deduplicated second part whose key the first part does not have. *)
Theorem dedupe_app (xs ys : list FeedItem) :
  dedupe (xs ++ ys) =
    dedupe xs ++ filter (λ it, item_key it ∉ item_key <$> xs) (dedupe ys)
  ∧ dedupe xs `prefix_of` dedupe (xs ++ ys).
Proof.
  split; [apply dedupe_app_filter|].
  rewrite dedupe_app_filter. by apply prefix_app_r.
Qed.

(** X8: no key is lost and none is kept twice: the output has the keys of
    the input, and as many items as the input has different keys. *)
Theorem dedupe_distinct_keys (items : list FeedItem) :
  (∀ k, k ∈ item_key <$> dedupe items ↔ k ∈ item_key <$> items)
  ∧ length (dedupe items)
    = size (list_to_set (item_key <$> items) : gset str).
Proof.
  split; [intros k; apply dedupe_keys|].
  rewrite <- (length_fmap item_key), <- (size_list_to_set (C:=gset str))
    by apply dedupe_NoDup.
  f_equal. apply set_eq. intros k. rewrite !elem_of_list_to_set.
  apply dedupe_keys.
Qed.

(** X9: the lists that [dedupe] leaves as they are are exactly those in
    which no key occurs twice. *)
Theorem dedupe_fixed_iff (items : list FeedItem) :
  dedupe items = items ↔ NoDup (item_key <$> items).
Proof.
  split; [|apply dedupe_id].
  intros Heq. rewrite <- Heq. apply dedupe_NoDup.
Qed.

(** ** White space at the ends of a string *)

Lemma lstrip_length s : (length (lstrip s) ≤ length s)%nat.
Proof.
  induction s as [|c s IH]; simpl; [lia|]. destruct (isspace c); simpl; lia.
Qed.

(** [lstrip] leaves exactly the strings that do not start with white
    space. *)
Lemma lstrip_fixed s :
  lstrip s = s ↔ s = [] ∨ ∃ c s', s = c :: s' ∧ isspace c = false.
Proof.
  destruct s as [|c s]; simpl; [by split; [left|]|].
  destruct (isspace c) eqn:Hc.
  - split.
    + intros Heq. pose proof (lstrip_length s) as Hlen.
      rewrite Heq in Hlen. simpl in Hlen. lia.
    + intros [?|(? & ? & ? & ?)]; [done|]. simplify_eq. congruence.
  - split; [|done]. right. eauto.
Qed.

Lemma lstrip_spaces y z :
  Forall (λ c, isspace c = true) y → lstrip (y ++ z) = lstrip z.
Proof. induction 1 as [|c y Hc _ IH]; simpl; [done|]. by rewrite Hc. Qed.

Lemma lstrip_idemp s : lstrip (lstrip s) = lstrip s.
Proof.
  induction s as [|c s IH]; simpl; [done|].
  destruct (isspace c) eqn:Hc; [done|]. simpl. by rewrite Hc.
Qed.

Lemma no_edge_space_nil : no_edge_space [].
Proof. done. Qed.

(** Padding with white space on both sides is removed by [strip]. *)
Lemma strip_padded y1 x y2 :
  Forall (λ c, isspace c = true) y1 → Forall (λ c, isspace c = true) y2 →
  no_edge_space x → strip (y1 ++ x ++ y2) = x.
Proof.
  intros Hy1 Hy2 [Hl Hr]. unfold strip, rstrip.
  rewrite lstrip_spaces by done.
  apply lstrip_fixed in Hl as [->|(c & x' & -> & Hc)].
  - simpl. rewrite <- (app_nil_r y2), lstrip_spaces by done. done.
  - simpl. rewrite Hc. change (c :: x' ++ y2) with ((c :: x') ++ y2).
    rewrite reverse_app, lstrip_spaces by by apply Forall_reverse.
    by rewrite Hr, reverse_involutive.
Qed.

Lemma strip_no_edge_space x : no_edge_space x → strip x = x.
Proof.
  intros Hx.
  assert (strip ([] ++ x ++ []) = x) as Hs
    by (apply strip_padded; [constructor..|done]).
  simpl in Hs. by rewrite app_nil_r in Hs.
Qed.

Lemma no_edge_space_strip s : no_edge_space (strip s).
Proof.
  unfold no_edge_space, strip, rstrip. rewrite reverse_involutive.
  split; [|apply lstrip_idemp].
  pose proof (proj1 (lstrip_fixed (lstrip s)) (lstrip_idemp s)) as Hs.
  destruct Hs as [->|(c & s' & -> & Hc)]; [done|].
  rewrite reverse_cons.
  assert (∀ u, lstrip (u ++ [c]) ≠ []) as Hne.
  { induction u as [|d u IH]; simpl; [by rewrite Hc|]. by destruct (isspace d). }
  assert (∀ u, ∃ v, lstrip (u ++ [c]) = v ++ [c]) as Hsnoc.
  { induction u as [|d u IH]; simpl; [rewrite Hc; by exists []|].
    destruct (isspace d); [done|]. by exists (d :: u). }
  destruct (Hsnoc (reverse s')) as [v ->].
  rewrite reverse_snoc. simpl. by rewrite Hc.
Qed.

Lemma no_edge_space_app x z y :
  x ≠ [] → y ≠ [] → no_edge_space x → no_edge_space y →
  no_edge_space (x ++ z ++ y).
Proof.
  intros Hx Hy [Hxl _] [_ Hyr]. split.
  - apply lstrip_fixed in Hxl as [->|(c & x' & -> & Hc)]; [done|].
    simpl. by rewrite Hc.
  - rewrite !reverse_app.
    apply lstrip_fixed in Hyr as [Hnil|(c & y' & Hy' & Hc)].
    + destruct y as [|d y] using rev_ind; [done|].
      by rewrite reverse_snoc in Hnil.
    + rewrite Hy'. simpl. by rewrite Hc.
Qed.

(** Parts without white space at their ends, joined, have none either. *)
Lemma no_edge_space_join sep parts :
  Forall (λ w, w ≠ [] ∧ no_edge_space w) parts →
  no_edge_space (join sep parts) ∧ (parts ≠ [] → join sep parts ≠ []).
Proof.
  induction 1 as [|w parts [Hw Hnw] Hparts [IH IHne]]; [done|].
  destruct parts as [|w' parts]; [done|].
  change (join sep (w :: w' :: parts))
    with (w ++ sep ++ join sep (w' :: parts)).
  split; [apply no_edge_space_app; auto|].
  intros _. by destruct w.
Qed.

(** ** The normalizer, continued *)

Lemma join_cons sep w parts :
  parts ≠ [] → join sep (w :: parts) = w ++ sep ++ join sep parts.
Proof. by destruct parts. Qed.

(** The scanner of [re.sub], read on the words of the text: with a word in
    progress, and after white space. *)
Lemma sub_spaces_words s :
  (∀ cur, cur ≠ [] →
     ∃ y, Forall (λ c, isspace c = true) y
          ∧ reverse cur ++ sub_spaces false s
            = join [space] (matches (λ c, negb (isspace c)) cur s) ++ y)
  ∧ (∃ y, Forall (λ c, isspace c = true) y
          ∧ sub_spaces true s
            = join [space] (matches (λ c, negb (isspace c)) [] s) ++ y).
Proof.
  induction s as [|c s [IHa [y' [Hy' IHb]]]].
  - split; [|by exists []]. intros cur Hcur. exists []. split; [done|].
    simpl. destruct cur; [done|]. by rewrite !app_nil_r.
  - split.
    + intros cur Hcur. simpl. destruct (isspace c) eqn:Hc; simpl.
      * rewrite IHb. destruct cur as [|d cur]; [done|].
        destruct (matches (λ c, negb (isspace c)) [] s) as [|w ws] eqn:Hm.
        -- exists (space :: y'). split; [by constructor|done].
        -- exists y'. split; [done|].
           rewrite (join_cons _ (reverse (d :: cur)) (w :: ws)) by done.
           by rewrite <- !app_assoc.
      * destruct (IHa (c :: cur)) as [y [Hy Heq]]; [done|].
        exists y. split; [done|]. rewrite <- Heq, reverse_cons.
        by rewrite <- app_assoc.
    + simpl. destruct (isspace c) eqn:Hc; simpl.
      * by exists y'.
      * destruct (IHa [c]) as [y [Hy Heq]]; [done|]. by exists y.
Qed.

Lemma sub_spaces_padded s :
  ∃ y1 y2, Forall (λ c, isspace c = true) y1
           ∧ Forall (λ c, isspace c = true) y2
           ∧ sub_spaces false s = y1 ++ join [space] (split s) ++ y2.
Proof.
  unfold split. destruct s as [|c s]; [by exists [], []|].
  destruct (sub_spaces_words s) as [Ha [y [Hy Hb]]].
  simpl. destruct (isspace c) eqn:Hc; simpl.
  - exists [space], y. split_and!; [by repeat constructor|done|].
    by rewrite Hb.
  - destruct (Ha [c]) as [y2 [Hy2 Heq]]; [done|].
    exists [], y2. by split_and!.
Qed.

(** The pieces of [split] are not empty and hold no white space. *)
Lemma split_words s :
  Forall (λ w, w ≠ [] ∧ Forall (λ c, isspace c = false) w) (split s).
Proof.
  unfold split. rewrite matches_runs. unfold runs_in.
  apply Forall_fmap, Forall_forall. intros [b r] [Hb Hr]%list_elem_of_filter.
  simpl in *. subst b.
  pose proof (runs_uniform (λ c, negb (isspace c)) s) as Hu.
  rewrite Forall_forall in Hu. destruct (Hu _ Hr) as [Hne Hall].
  split; [done|]. eapply Forall_impl; [done|]. simpl.
  intros c. by destruct (isspace c).
Qed.

Lemma word_no_edge_space w :
  w ≠ [] → Forall (λ c, isspace c = false) w → no_edge_space w.
Proof.
  intros Hne Hw. split; apply lstrip_fixed; right.
  - destruct w as [|c w]; [done|]. apply Forall_cons in Hw as [Hc _]. eauto.
  - destruct w as [|c w _] using rev_ind; [done|]. rewrite reverse_snoc.
    apply Forall_app in Hw as [_ Hc]. inversion_clear Hc. eauto.
Qed.

Lemma words_no_edge_space s :
  Forall (λ w, w ≠ [] ∧ no_edge_space w) (split s).
Proof.
  eapply Forall_impl; [apply split_words|]. simpl.
  intros w [??]. split; [done|]. by apply word_no_edge_space.
Qed.

Lemma normalize_text_join_split text :
  normalize_text text = join [space] (split (default [] text)).
Proof.
  unfold normalize_text.
  destruct (sub_spaces_padded (default [] text)) as (y1 & y2 & ? & ? & ->).
  apply strip_padded; [done..|].
  apply no_edge_space_join, words_no_edge_space.
Qed.

(** Splitting what was joined by spaces gives the words back. *)
Lemma split_join ws :
  Forall (λ w, w ≠ [] ∧ Forall (λ c, isspace c = false) w) ws →
  split (join [space] ws) = ws.
Proof.
  unfold split.
  induction 1 as [|w ws [Hne Hw] Hws IH]; [done|].
  assert (matches (λ c, negb (isspace c)) [] w = [w]) as Hone.
  { rewrite matches_all; [done| |by destruct w].
    eapply Forall_impl; [done|]. simpl. by intros c ->. }
  destruct ws as [|w' ws]; [done|].
  change (join [space] (w :: w' :: ws))
    with (w ++ space :: join [space] (w' :: ws)).
  by rewrite matches_app_sep, Hone, IH.
Qed.

(** X10: [normalize_text] is [" ".join(text.split())]: the words of the
    text, the pieces between white space, joined by single spaces. *)
Theorem normalize_text_words (text : option str) :
  normalize_text text = join [space] (split (default [] text))
  ∧ split (normalize_text text) = split (default [] text).
Proof.
  rewrite normalize_text_join_split. split; [done|].
  apply split_join, split_words.
Qed.

Lemma normalize_text_fixed text :
  normalize_text (Some (normalize_text text)) = normalize_text text.
Proof.
  rewrite (normalize_text_join_split (Some _)). simpl.
  rewrite (normalize_text_join_split text).
  by rewrite split_join by apply split_words.
Qed.

(** X11: [normalize_text] is idempotent, and its result has no white space
    at its ends. *)
Theorem normalize_text_idempotent (text : option str) :
  normalize_text (Some (normalize_text text)) = normalize_text text
  ∧ strip (normalize_text text) = normalize_text text.
Proof.
  split.
  - apply normalize_text_fixed.
  - apply strip_no_edge_space. unfold normalize_text.
    apply no_edge_space_strip.
Qed.

Lemma matches_cur_nonempty p s cur : cur ≠ [] → matches p cur s ≠ [].
Proof.
  revert cur. induction s as [|c s IH]; intros cur Hcur; simpl.
  - by destruct cur.
  - destruct (p c); [by apply IH|]. by destruct cur.
Qed.

Lemma split_nil s : split s = [] ↔ Forall (λ c, isspace c = true) s.
Proof.
  unfold split. split.
  - induction s as [|c s IH]; [done|]. simpl.
    destruct (isspace c) eqn:Hc; simpl; [by constructor; auto|].
    intros Hm. by apply matches_cur_nonempty in Hm.
  - intros Hs. rewrite matches_none; [done|].
    eapply Forall_impl; [done|]. simpl. by intros c ->.
Qed.

Lemma join_split_nil s :
  join [space] (split s) = [] ↔ Forall (λ c, isspace c = true) s.
Proof.
  rewrite <- split_nil. split; [|by intros ->].
  pose proof (words_no_edge_space s) as Hw.
  intros Hj. destruct (split s) as [|w ws]; [done|].
  apply (no_edge_space_join [space]) in Hw as [_ Hne]. by destruct Hne.
Qed.

(** X12: the result of [normalize_text] is empty exactly when the text is
    absent, empty, or made of white space only. *)
Theorem normalize_text_empty_iff (text : option str) :
  normalize_text text = []
  ↔ Forall (λ c, isspace c = true) (default [] text).
Proof.
  rewrite normalize_text_join_split. apply join_split_nil.
Qed.

(** ** Extraction of the items *)

Lemma extract_items_snoc entries e source_name :
  extract_items (entries ++ [e]) source_name
  = extract_step source_name (extract_items entries source_name) e.
Proof. unfold extract_items. by rewrite foldl_snoc. Qed.

(** An entry is skipped exactly when it has no text. *)
Lemma extract_step_kept source_name items e :
  extract_step source_name items e =
    if decide (has_text e) then items ++ [item_of_entry source_name e]
    else items.
Proof.
  unfold extract_step, getattr_or_empty, item_of_entry.
  change (normalize_text (Some (default [] (entry_title e))))
    with (normalize_text (entry_title e)).
  change (normalize_text (Some (default [] (entry_summary e))))
    with (normalize_text (entry_summary e)).
  change (normalize_text (Some (default [] (entry_published e))))
    with (normalize_text (entry_published e)).
  pose proof (join_split_nil (default [] (entry_title e))) as Ht.
  pose proof (join_split_nil (default [] (entry_summary e))) as Hs.
  rewrite <- !normalize_text_join_split in Ht, Hs.
  unfold has_text. case_decide as Hd.
  - destruct (normalize_text (entry_title e)) eqn:Et; [|done].
    destruct (normalize_text (entry_summary e)) eqn:Es; [|done].
    destruct Hd. split; [by apply Ht|by apply Hs].
  - destruct Hd as [Hdt Hds].
    by rewrite (proj2 Ht Hdt), (proj2 Hs Hds).
Qed.

Lemma extract_items_snoc_kept entries e source_name :
  extract_items (entries ++ [e]) source_name =
    if decide (has_text e)
    then extract_items entries source_name ++ [item_of_entry source_name e]
    else extract_items entries source_name.
Proof. by rewrite extract_items_snoc, extract_step_kept. Qed.

(** X13: [extract_items] makes one item, in order, from every entry that
    has a character other than white space in its title or its summary, and
    skips the other entries. *)
Theorem extract_items_kept (entries : list FeedEntry) (source_name : str) :
  extract_items entries source_name
  = item_of_entry source_name <$> filter has_text entries.
Proof.
  induction entries as [|e entries IH] using rev_ind; [done|].
  rewrite extract_items_snoc_kept, IH, filter_app, fmap_app.
  case_decide.
  - by rewrite filter_cons_True.
  - rewrite filter_cons_False by done. by rewrite app_nil_r.
Qed.

Lemma has_text_normalized e :
  has_text e →
  normalize_text (entry_title e) ≠ [] ∨ normalize_text (entry_summary e) ≠ [].
Proof.
  unfold has_text. intros Hne.
  destruct (normalize_text (entry_title e)) eqn:Et; [|by left].
  destruct (normalize_text (entry_summary e)) eqn:Es; [|by right].
  destruct Hne. rewrite normalize_text_join_split in Et, Es.
  split; by apply join_split_nil.
Qed.

(** X14: every extracted item carries the name of its source, has a title
    or a summary, has a link (possibly empty), and its title, summary and
    date are normalized. *)
Theorem extract_items_invariant (entries : list FeedEntry) (source_name : str) :
  Forall (λ it,
            source it = source_name
            ∧ (title it ≠ [] ∨ summary it ≠ [])
            ∧ is_Some (link it)
            ∧ normalize_text (Some (title it)) = title it
            ∧ normalize_text (Some (summary it)) = summary it
            ∧ normalize_text (Some (published it)) = published it)
         (extract_items entries source_name).
Proof.
  induction entries as [|e entries IH] using rev_ind; [constructor|].
  rewrite extract_items_snoc_kept. case_decide as He; [|done].
  apply Forall_app. split; [done|]. constructor; [|constructor].
  simpl. split_and!; try done.
  - by apply has_text_normalized.
  - apply normalize_text_fixed.
  - apply normalize_text_fixed.
  - apply normalize_text_fixed.
Qed.

(** ** Escaping *)

Lemma replace_app old new a b :
  replace old new (a ++ b) = replace old new a ++ replace old new b.
Proof. apply bind_app. Qed.

Lemma html_escape_app a b :
  html_escape (a ++ b) = html_escape a ++ html_escape b.
Proof. unfold html_escape. by rewrite !replace_app. Qed.

(** The five replacements do not disturb one another: together they
    replace every character by its entity. *)
Lemma html_escape_char c : html_escape [c] = escape_char c.
Proof.
  unfold escape_char.
  repeat match goal with
         | |- context [decide (c = ?n)] =>
             destruct (decide (c = n)) as [->|?]; [done|]
         end.
  unfold html_escape, replace. simpl.
  repeat (rewrite decide_False by done; simpl). done.
Qed.

Lemma html_escape_bind s : html_escape s = s ≫= escape_char.
Proof.
  induction s as [|c s IH]; [done|].
  change (c :: s) with ([c] ++ s).
  by rewrite html_escape_app, html_escape_char, IH.
Qed.

Lemma escape_char_no_markup c :
  Forall (λ d, is_markup_char d = false) (escape_char c).
Proof.
  unfold escape_char.
  repeat match goal with
         | |- context [decide (c = ?n)] =>
             destruct (decide (c = n)) as [->|?]; [by repeat constructor|]
         end.
  repeat constructor. unfold is_markup_char.
  by rewrite !(proj2 (N.eqb_neq _ _)) by done.
Qed.

(** X15: escaped text holds no angle bracket and no quote, whatever the
    text was; text without the five characters that are escaped is left as
    it is. *)
Theorem esc_no_markup (s : option str) :
  Forall (λ d, is_markup_char d = false) (esc s)
  ∧ (Forall (λ c, escape_char c = [c]) (default [] s)
     → esc s = default [] s).
Proof.
  unfold esc. rewrite html_escape_bind. split.
  - apply Forall_bind, Forall_true, escape_char_no_markup.
  - induction 1 as [|c t Hc _ IH]; [done|]. by rewrite bind_cons, Hc, IH.
Qed.

Lemma esc_no_markup_witness :
  esc (Some (of_string "DoorDash stock")) = of_string "DoorDash stock".
Proof.
  apply (esc_no_markup (Some (of_string "DoorDash stock"))).
  repeat constructor.
Defined.

(** Two characters whose entities start two equal texts are equal, and so
    are the rest of the texts. *)
Lemma escape_char_inj c1 c2 r1 r2 :
  escape_char c1 ++ r1 = escape_char c2 ++ r2 → c1 = c2 ∧ r1 = r2.
Proof.
  unfold escape_char.
  repeat (case_decide; subst); simpl; intros; by simplify_eq.
Qed.

(** X16: escaping loses nothing: two texts with the same escaped form are
    the same text. *)
Theorem esc_injective (s1 s2 : str) :
  esc (Some s1) = esc (Some s2) → s1 = s2.
Proof.
  unfold esc. simpl. rewrite !html_escape_bind. revert s2.
  induction s1 as [|c1 s1 IH]; intros [|c2 s2]; rewrite ?bind_cons.
  - done.
  - intros Heq. exfalso. revert Heq. unfold escape_char.
    repeat case_decide; done.
  - intros Heq. exfalso. revert Heq. unfold escape_char.
    repeat case_decide; done.
  - intros [-> ?]%escape_char_inj. f_equal. by apply IH.
Qed.

Lemma esc_injective_witness :
  of_string "a<" ++ of_string "b" = of_string "a<b".
Proof.
  apply (esc_injective (of_string "a<" ++ of_string "b") (of_string "a<b")).
  reflexivity.
Defined.

(** ** The summarizer, continued *)

Lemma sorted_reverse_length xs : length (sorted_reverse xs) = length xs.
Proof. apply Permutation_length, sorted_reverse_perm. Qed.

Lemma split_sentences_nonempty text :
  (1 ≤ length (split_sentences text))%nat.
Proof. rewrite split_sentences_length. lia. Qed.

Lemma take_nonpos {A} (n : Z) (xs : list A) :
  n ≤ 0 → take (Z.to_nat n) xs = [].
Proof. intros. by replace (Z.to_nat n) with 0%nat by lia. Qed.

(** The summary in the branch that ranks, whatever the sign of
    [max_sentences]. *)
Lemma summarize_text_long (text : str) (max_sentences : Z) :
  max_sentences < Z.of_nat (length (split_sentences text)) →
  summarize_text text max_sentences =
    join [space]
      (filter (λ t, t ≠ [])
         (strip <$>
            (slice_to max_sentences
               (sorted_reverse
                  ((λ s, (sentence_score text s, s)) <$> split_sentences text))).*2)).
Proof.
  intros Hlt. unfold summarize_text. rewrite decide_False by lia.
  do 6 f_equal. apply list_fmap_ext. intros _ s _. simpl.
  by rewrite score_of_sentence.
Qed.

(** X17: with [max_sentences] 0 the summary of every text is empty, and
    the summary of the empty text is empty for every [max_sentences]. *)
Theorem summarize_text_nothing (text : str) (max_sentences : Z) :
  summarize_text text 0 = []
  ∧ summarize_text [] max_sentences = [].
Proof.
  split.
  - pose proof (split_sentences_nonempty text).
    rewrite summarize_text_long by lia. done.
  - destruct (decide (1 ≤ max_sentences)) as [Hk|Hk].
    + unfold summarize_text. simpl. by rewrite decide_True.
    + rewrite summarize_text_long by (simpl; lia).
      assert (slice_to max_sentences
                (sorted_reverse
                   ((λ s, (sentence_score [] s, s)) <$> split_sentences []))
              = []) as ->; [|done].
      unfold slice_to. case_decide; apply take_nonpos;
        rewrite ?sorted_reverse_length; simpl; lia.
Qed.

(** X18: for a negative [max_sentences] no text is short enough to be
    returned as it is, and the slice of the source leaves out the last
    [- max_sentences] sentences of the ranking instead of keeping none. *)
Theorem summarize_text_negative (text : str) (max_sentences : Z) :
  max_sentences < 0 →
  ∃ ranked : list (Z * str),
    ranked ≡ₚ (λ s, (sentence_score text s, s)) <$> split_sentences text
    ∧ StronglySorted ranks_before ranked
    ∧ summarize_text text max_sentences =
        join [space]
          (filter (λ t, t ≠ [])
             (strip <$>
                (take (length ranked - Z.to_nat (- max_sentences)) ranked).*2)).
Proof.
  intros Hk.
  exists (sorted_reverse
            ((λ s, (sentence_score text s, s)) <$> split_sentences text)).
  split_and!; [apply sorted_reverse_perm|apply sorted_reverse_sorted|].
  rewrite summarize_text_long by lia. by rewrite slice_to_neg.
Qed.

Lemma summarize_text_negative_witness :
  summarize_text (of_string "Sales beat. Sales rose! Why?") (-1)
  = of_string "Sales rose! Sales beat.".
Proof.
  destruct (summarize_text_negative
              (of_string "Sales beat. Sales rose! Why?") (-1))
    as (ranked & Hperm & Hsorted & ->); [lia|].
  assert (ranked =
          sorted_reverse
            ((λ s, (sentence_score (of_string "Sales beat. Sales rose! Why?") s, s))
               <$> split_sentences (of_string "Sales beat. Sales rose! Why?")))
    as ->.
  { apply ranking_unique; [done|apply sorted_reverse_sorted|].
    by rewrite sorted_reverse_perm. }
  by vm_compute.
Defined.

(** X19: a summary never starts or ends with white space. *)
Theorem summarize_text_stripped (text : str) (max_sentences : Z) :
  strip (summarize_text text max_sentences) = summarize_text text max_sentences.
Proof.
  apply strip_no_edge_space. unfold summarize_text. case_decide.
  - apply no_edge_space_strip.
  - apply no_edge_space_join, Forall_forall.
    intros t [Ht (s & -> & _)%list_elem_of_fmap]%list_elem_of_filter.
    split; [done|]. apply no_edge_space_strip.
Qed.

(** ** The orchestrator, continued *)

Lemma full_stop_space_separators : Forall is_separator (of_string ". ").
Proof. repeat constructor; by vm_compute. Qed.

Lemma space_separators : Forall is_separator [space].
Proof. repeat constructor; by vm_compute. Qed.

Lemma tokenize_title_summary (i : FeedItem) (sep : str) :
  sep ≠ [] → Forall is_separator sep →
  tokenize (title i ++ sep ++ summary i)
  = tokenize (title i) ++ tokenize (summary i).
Proof.
  intros Hne Hsep. destruct Hsep as [|c sep Hc Hsep]; [done|].
  simpl. rewrite tokenize_separator by done. by rewrite tokenize_separators.
Qed.

(** X20: the summarizer and the scorer read the same tokens, although one
    joins title and summary by a full stop and a space and the other by a
    space: the tokens of the combined text are those of the texts that are
    scored, in order, and the sentiment of the batch is that of the
    combined text taken as one text. *)
Theorem combined_text_tokens (items : list FeedItem) :
  tokenize (combined_text items)
  = ((λ i, title i ++ [space] ++ summary i) <$> items) ≫= tokenize
  ∧ sentiment_of (build_summary_sentiment items)
    = sentiment_score [combined_text items].
Proof.
  assert (tokenize (combined_text items)
          = ((λ i, title i ++ [space] ++ summary i) <$> items) ≫= tokenize)
    as Htok.
  { unfold combined_text. induction items as [|i items IH]; [done|].
    rewrite !fmap_cons, bind_cons.
    rewrite (tokenize_title_summary i [space])
      by first [done | apply space_separators].
    destruct items as [|i' items].
    - change (tokenize (title i ++ of_string ". " ++ summary i)
              = (tokenize (title i) ++ tokenize (summary i)) ++ []).
      rewrite app_nil_r.
      apply tokenize_title_summary; [done|apply full_stop_space_separators].
    - rewrite join_cons by done.
      rewrite (app_assoc (title i ++ of_string ". " ++ summary i) [space]).
      rewrite <- (app_assoc _ [space]).
      change ([space] ++ ?x) with (space :: x).
      rewrite tokenize_separator by apply space_separator.
      rewrite IH.
      by rewrite tokenize_title_summary
        by first [done | apply full_stop_space_separators]. }
  split; [done|].
  unfold build_summary_sentiment. simpl. apply sentiment_score_tokens.
  simpl. by rewrite app_nil_r, Htok.
Qed.

(** ** Sentences *)

Lemma split_after_terminator_nonempty s after_term in_sep cur :
  split_after_terminator after_term in_sep cur s ≠ [].
Proof.
  revert after_term in_sep cur.
  induction s as [|c s IH]; intros after_term in_sep cur; simpl; [done|].
  destruct (isspace c), in_sep, after_term; done || apply IH.
Qed.

Lemma removelast_cons {A} (x : A) (l : list A) :
  l ≠ [] → removelast (x :: l) = x :: removelast l.
Proof. by destruct l. Qed.

(** The scanner loses white space only. *)
Lemma split_after_terminator_keeps s after_term in_sep cur :
  filter (λ c, isspace c = false)
         (mjoin (split_after_terminator after_term in_sep cur s))
  = filter (λ c, isspace c = false) (reverse cur ++ s).
Proof.
  revert after_term in_sep cur.
  induction s as [|c s IH]; intros after_term in_sep cur; simpl.
  - by rewrite !app_nil_r.
  - destruct (isspace c) eqn:Hc.
    + rewrite filter_app, (filter_cons_False _ c) by congruence.
      destruct in_sep; [|destruct after_term].
      * by rewrite IH, filter_app.
      * simpl. by rewrite filter_app, IH.
      * rewrite IH, reverse_cons, <- app_assoc, !filter_app. simpl.
        by rewrite (filter_cons_False _ c) by congruence.
    + by rewrite IH, reverse_cons, <- app_assoc.
Qed.

(** Every piece that the scanner closes ends with a terminator. *)
Lemma split_after_terminator_ends s after_term in_sep cur :
  (after_term = true → from_option is_terminator false (head cur) = true) →
  Forall (λ p, from_option is_terminator false (last p) = true)
         (removelast (split_after_terminator after_term in_sep cur s)).
Proof.
  revert after_term in_sep cur.
  induction s as [|c s IH]; intros after_term in_sep cur Hinv; simpl.
  - constructor.
  - destruct (isspace c) eqn:Hc.
    + destruct in_sep; [by apply IH|]. destruct after_term; [|by apply IH].
      rewrite removelast_cons by apply split_after_terminator_nonempty.
      constructor; [|by apply IH].
      destruct cur as [|d cur]; [by specialize (Hinv eq_refl)|].
      rewrite reverse_cons, last_snoc. by apply Hinv.
    + apply IH. simpl. done.
Qed.

(** X21: splitting into sentences loses white space only, and every
    sentence but the last ends with a full stop, an exclamation mark or a
    question mark. *)
Theorem split_sentences_pieces (text : str) :
  filter (λ c, isspace c = false) (mjoin (split_sentences text))
  = filter (λ c, isspace c = false) text
  ∧ Forall (λ p, from_option is_terminator false (last p) = true)
           (removelast (split_sentences text)).
Proof.
  unfold split_sentences. split.
  - by rewrite split_after_terminator_keeps.
  - by apply split_after_terminator_ends.
Qed.

Lemma isspace_range c : isspace c = true → (c ≤ 0x20 ∨ 0x85 ≤ c)%N.
Proof.
  unfold isspace, between.
  rewrite !orb_true_iff, !andb_true_iff, !N.leb_le, !N.eqb_eq. lia.
Qed.

Lemma isspace_separator c : isspace c = true → is_separator c.
Proof.
  intros Hc. unfold is_separator. split_and!.
  - apply isspace_range in Hc. unfold is_word_char, between, apostrophe.
    rewrite !orb_false_iff, !andb_false_iff, !N.leb_gt, N.eqb_neq. lia.
  - intros ->. by vm_compute in Hc.
  - intros ->. by vm_compute in Hc.
Qed.

Lemma tokenize_lstrip_spaces c s : isspace c = true → tokenize (c :: s) = tokenize s.
Proof.
  intros Hc. change (c :: s) with ([] ++ c :: s).
  by rewrite tokenize_separator by by apply isspace_separator.
Qed.

(** The tokens of what the scanner has read and has still to read are
    those of its pieces. *)
Lemma split_after_terminator_tokens s after_term in_sep cur :
  (in_sep = true → cur = []) →
  split_after_terminator after_term in_sep cur s ≫= tokenize
  = tokenize (reverse cur ++ s).
Proof.
  revert after_term in_sep cur.
  induction s as [|c s IH]; intros after_term in_sep cur Hinv; simpl.
  - by rewrite !app_nil_r.
  - destruct (isspace c) eqn:Hc.
    + destruct in_sep.
      * rewrite IH, (Hinv eq_refl) by done. simpl.
        by rewrite tokenize_lstrip_spaces.
      * destruct after_term.
        -- rewrite bind_cons, IH by done. simpl.
           by rewrite tokenize_separator by by apply isspace_separator.
        -- rewrite IH by done. by rewrite reverse_cons, <- app_assoc.
    + rewrite IH by done. by rewrite reverse_cons, <- app_assoc.
Qed.

Lemma split_sentences_tokens text :
  split_sentences text ≫= tokenize = tokenize text.
Proof. unfold split_sentences. by rewrite split_after_terminator_tokens. Qed.

(** X22: the tokens of a text are the tokens of its sentences, in order:
    no token runs over the end of a sentence. *)
Theorem tokenize_sentences (text : str) :
  tokenize text = split_sentences text ≫= tokenize
  ∧ Forall (λ s, tokenize s `sublist_of` tokenize text) (split_sentences text).
Proof.
  split; [by rewrite split_sentences_tokens|].
  rewrite <- split_sentences_tokens.
  induction (split_sentences text) as [|s ss IH]; [constructor|].
  rewrite bind_cons. constructor.
  - by apply sublist_inserts_r.
  - eapply Forall_impl; [apply IH|]. simpl. intros s' Hs'.
    by apply sublist_inserts_l.
Qed.

Lemma frequency_pos text w : w ∈ tokenize text → 1 ≤ frequency text w.
Proof.
  intros Hw. unfold frequency.
  assert (w ∈ filter (w =.) (tokenize text)) as Hin
    by by apply list_elem_of_filter.
  destruct (filter (w =.) (tokenize text)); [by apply elem_of_nil in Hin|].
  simpl. lia.
Qed.

Lemma sentence_score_ge text ws :
  Forall (λ w, w ∈ tokenize text) ws →
  Z.of_nat (length ws) ≤ foldr (λ w total, frequency text w + total) 0 ws.
Proof.
  induction 1 as [|w ws Hw _ IH]; simpl; [done|].
  pose proof (frequency_pos text w Hw). lia.
Qed.

(** X23: the score of a sentence of the text is at least the number of its
    tokens, for each of them occurs in the text; so the sentences without
    tokens are those with score 0. *)
Theorem sentence_score_tokens (text s : str) :
  s ∈ split_sentences text →
  Z.of_nat (length (tokenize s)) ≤ sentence_score text s
  ∧ (sentence_score text s = 0 ↔ tokenize s = []).
Proof.
  intros Hs.
  assert (Forall (λ w, w ∈ tokenize text) (tokenize s)) as Hall.
  { apply Forall_forall. intros w Hw.
    rewrite <- split_sentences_tokens. apply list_elem_of_bind. eauto. }
  pose proof (sentence_score_ge text _ Hall) as Hge.
  split; [done|]. unfold sentence_score in *. split.
  - intros H0. rewrite H0 in Hge. destruct (tokenize s); [done|].
    simpl in Hge. lia.
  - by intros ->.
Qed.

Lemma sentence_score_tokens_witness :
  Z.of_nat (length (tokenize (of_string "Sales rose!")))
  ≤ sentence_score (of_string "Sales beat. Sales rose! Why?")
                   (of_string "Sales rose!").
Proof.
  apply (sentence_score_tokens (of_string "Sales beat. Sales rose! Why?")).
  apply (bool_decide_unpack _). by vm_compute.
Defined.

(** * Part 5: the summary of a long text *)

Lemma join_space_joined parts : join [space] parts = space_joined parts.
Proof.
  induction parts as [|p parts IH]; [done|].
  destruct parts as [|q parts]; [simpl; by rewrite app_nil_r|].
  rewrite join_cons by done. rewrite IH. unfold space_joined.
  by rewrite bind_cons.
Qed.

Lemma lstrip_fixed_head s :
  lstrip s = s ↔ from_option (λ c, isspace c = false) True (head s).
Proof.
  rewrite lstrip_fixed. destruct s as [|c s]; simpl.
  - split; [done|by left].
  - split; [by intros [?|(? & ? & ? & ?)]; simplify_eq|]. right. eauto.
Qed.

Lemma clean_edges_no_edge_space t : clean_edges t ↔ no_edge_space t.
Proof.
  unfold clean_edges, no_edge_space.
  by rewrite !lstrip_fixed_head, head_reverse.
Qed.

Lemma lstrip_decompose s :
  ∃ y, s = y ++ lstrip s ∧ Forall (λ c, isspace c = true) y.
Proof.
  induction s as [|c s (y & Hs & Hy)]; [by exists []|]. simpl.
  destruct (isspace c) eqn:Hc; [|by exists []].
  exists (c :: y). split; [by rewrite Hs at 1|by constructor].
Qed.

(** [strip] trims. *)
Lemma strip_trim_of s : trim_of (strip s) s.
Proof.
  split; [apply clean_edges_no_edge_space, no_edge_space_strip|].
  destruct (lstrip_decompose s) as (y1 & Hs & Hy1).
  destruct (lstrip_decompose (reverse (lstrip s))) as (y2 & Hr & Hy2).
  exists y1, (reverse y2). split_and!; [|done|by apply Forall_reverse].
  unfold strip, rstrip. rewrite <- reverse_app, <- Hr, reverse_involutive.
  done.
Qed.

(** A string has one trimmed form only. *)
Lemma trim_of_strip t s : trim_of t s → t = strip s.
Proof.
  intros [Ht (y1 & y2 & -> & Hy1 & Hy2)]. symmetry.
  apply strip_padded; [done..|]. by apply clean_edges_no_edge_space.
Qed.

Lemma Forall2_trim_of ts ss : Forall2 trim_of ts ss → ts = strip <$> ss.
Proof.
  induction 1 as [|t s ts ss Hts _ IH]; [done|].
  by rewrite fmap_cons, <- IH, <- (trim_of_strip t s).
Qed.

(** C2: a text with more than [max_sentences] sentences is summarized by
    ranking.  Every sentence is scored with the sum of the global
    frequencies of its tokens; the sentences are put in descending order of
    the pairs (score, sentence), so that among equal scores the
    lexicographically later sentence comes first; the first [max_sentences]
    of them are trimmed, the empty ones are dropped, and the rest is
    returned with single spaces in between, in the order of the ranking.
    [max_sentences] is a number of sentences, hence not negative. *)
Theorem summarize_text_ranking (text : str) (max_sentences : Z) :
  0 ≤ max_sentences →
  max_sentences < Z.of_nat (length (split_sentences text)) →
  ∃ (ranked : list (Z * str)) (trimmed : list str),
    ranked ≡ₚ (λ s, (sentence_score text s, s)) <$> split_sentences text
    ∧ StronglySorted ranks_before ranked
    ∧ Forall2 trim_of trimmed (take (Z.to_nat max_sentences) ranked).*2
    ∧ summarize_text text max_sentences
      = space_joined (filter (λ t, t ≠ []) trimmed).
Proof.
  intros Hk Hlt.
  exists (sorted_reverse
            ((λ s, (sentence_score text s, s)) <$> split_sentences text)).
  eexists (strip <$> _).
  split_and!; [apply sorted_reverse_perm|apply sorted_reverse_sorted| |].
  - apply Forall2_fmap_l, Forall_Forall2_diag, Forall_true, strip_trim_of.
  - rewrite summarize_text_long by done.
    by rewrite slice_to_nonneg, join_space_joined.
Qed.

(** Four sentences, the first behind two spaces.  "Sales" occurs three
    times, so the first two sentences both score 4; "Sales rose!" is the
    later one in the order of the strings and comes first, and the spaces
    in front of "Sales beat." are trimmed away. *)
Lemma summarize_text_ranking_witness :
  summarize_text (of_string "  Sales beat. Sales rose! Why? Sales.") 2
  = of_string "Sales rose! Sales beat.".
Proof.
  destruct (summarize_text_ranking
              (of_string "  Sales beat. Sales rose! Why? Sales.") 2)
    as (ranked & trimmed & Hperm & Hsorted & Htrim & ->);
    [lia|by vm_compute|].
  assert (ranked =
          sorted_reverse
            ((λ s, (sentence_score
                      (of_string "  Sales beat. Sales rose! Why? Sales.") s, s))
               <$> split_sentences
                     (of_string "  Sales beat. Sales rose! Why? Sales.")))
    as ->.
  { apply ranking_unique; [done|apply sorted_reverse_sorted|].
    by rewrite sorted_reverse_perm. }
  apply Forall2_trim_of in Htrim as ->. by vm_compute.
Defined.
